(** * AI-Powered Note Organizer: a shallow embedding of [aipowerdnoteorganizer.py]

    The development follows the Python source top-down: text helpers
    ([str.lower], the [in] operator on strings), the note classes, the
    keyword table and [_categorize_note], the JSON file behind
    [_load_notes] / [_save_notes], and the four operations of
    [NoteOrganizer].

    Modelling conventions.
    - Python [str] is [string] (8-bit characters); [lower] follows
      [str.lower] on the ASCII range, which is where the keyword table and
      the category names live.
    - Python [int] is [Z].
    - The random source behind [random.choice] is an explicit argument:
      the index that was drawn.
    - The file system and the terminal are an explicit [world] that the
      operations thread through. *)

From Stdlib Require Import ZArith Ascii.
From stdpp Require Import base option list sorting gmap strings.

Local Open Scope Z_scope.

(** ** Text helpers *)

Module Text.

(** [c.lower()] for one character: [A]..[Z] move to [a]..[z]. *)
Definition lower_char (c : ascii) : ascii :=
  let n := N_of_ascii c in
  if ((65 <=? n) && (n <=? 90))%N then ascii_of_N (n + 32) else c.

(** [s.lower()]. *)
Fixpoint lower (s : string) : string :=
  match s with
  | EmptyString => EmptyString
  | String c s' => String (lower_char c) (lower s')
  end.

(** [s.startswith(p)], the test [in] performs at each position. *)
Fixpoint startswith (p s : string) : bool :=
  match p, s with
  | EmptyString, _ => true
  | String _ _, EmptyString => false
  | String a p', String b s' => if decide (a = b) then startswith p' s' else false
  end.

(** [k in s] on strings: [k] occurs in [s] at some position. *)
Fixpoint contains (k s : string) : bool :=
  startswith k s ||
  match s with
  | EmptyString => false
  | String _ s' => contains k s'
  end.

(** The mathematical notion of substring the executable test decides. *)
Definition Substring (k s : string) : Prop :=
  ∃ pre post, s = pre +:+ k +:+ post.


End Text.

(** ** The note classes *)

(** [Note], [CategorizedNote(Note)] and
    [TaggedCategorizedNote(CategorizedNote, TaggingMixin)]: one constructor
    per class, the fields in the order of the [__init__] parameters. *)
Inductive note : Type :=
| Note (note_id : Z) (title content : string)
| CategorizedNote (note_id : Z) (title content category : string)
| TaggedCategorizedNote (note_id : Z) (title content category : string)
                        (tags : list string).

Definition get_id (n : note) : Z :=
  match n with
  | Note i _ _ | CategorizedNote i _ _ _ | TaggedCategorizedNote i _ _ _ _ => i
  end.

Definition title (n : note) : string :=
  match n with
  | Note _ t _ | CategorizedNote _ t _ _ | TaggedCategorizedNote _ t _ _ _ => t
  end.

Definition content (n : note) : string :=
  match n with
  | Note _ _ c | CategorizedNote _ _ c _ | TaggedCategorizedNote _ _ c _ _ => c
  end.

(** [isinstance(n, CategorizedNote)] together with [n.category]: a plain
    [Note] has no such attribute. *)
Definition category (n : note) : option string :=
  match n with
  | Note _ _ _ => None
  | CategorizedNote _ _ _ c | TaggedCategorizedNote _ _ _ c _ => Some c
  end.

Definition isinstance_CategorizedNote (n : note) : bool :=
  match n with
  | Note _ _ _ => false
  | _ => true
  end.

(** ** Categorisation *)

(** The [keywords] dict of [_categorize_note]; a Python dict iterates in
    insertion order, so the table is an association list. *)
Definition keywords : list (string * list string) :=
  [ ("Work", ["meeting"; "project"; "deadline"; "report"; "task"; "work"]);
    ("Personal", ["shopping"; "gym"; "family"; "friends"; "grocery"; "personal"]);
    ("Study", ["lecture"; "assignment"; "exam"; "research"; "study"; "class"]);
    ("Idea", ["idea"; "concept"; "brainstorm"; "innovate"]) ].

(** [text = (title + " " + content).lower()]. *)
Definition note_text (title content : string) : string :=
  Text.lower (title +:+ " " +:+ content).

(** The two nested [for] loops: the first category, in table order, one of
    whose keywords is [in text]; [None] when both loops run to their end. *)
Fixpoint first_match (text : string) (table : list (string * list string))
  : option string :=
  match table with
  | [] => None
  | (cat, kws) :: rest =>
      if existsb (fun kw => Text.contains kw text) kws then Some cat
      else first_match text rest
  end.

(** [list(keywords.keys()) + ["General"]]. *)
Definition fallback_pool : list string := (keywords.*1) ++ ["General"].

(** [random.choice(seq)] is [seq[i]] for the index [i] the generator draws
    below [len(seq)]; the draw [r] is reduced modulo the length, so every
    natural number stands for a draw. *)
Definition random_choice (r : nat) (seq : list string) : string :=
  nth (r mod length seq)%nat seq EmptyString.

Definition _categorize_note (r : nat) (title content : string) : string :=
  let text := note_text title content in
  match first_match text keywords with
  | Some cat => cat
  | None => random_choice r fallback_pool
  end.

(** ** Serialisation: [to_dict] and the JSON file *)

(** The values that occur in a stored record: an integer, a string, or the
    list of strings of a tagged note. *)
Inductive jvalue : Type :=
| JInt (z : Z)
| JStr (s : string)
| JList (l : list string).

(** A Python dict with string keys, as [to_dict] builds and [json.load]
    returns. *)
Abbreviation jdict := (gmap string jvalue).

(** [Note.to_dict]. *)
Definition Note_to_dict (i : Z) (t c : string) : jdict :=
  <["content" := JStr c]> (<["title" := JStr t]> (<["id" := JInt i]> ∅)).

(** [to_dict] with its two overrides; each calls [super().to_dict()] and
    stores one more key. *)
Definition to_dict (n : note) : jdict :=
  match n with
  | Note i t c => Note_to_dict i t c
  | CategorizedNote i t c cat =>
      <["category" := JStr cat]> (Note_to_dict i t c)
  | TaggedCategorizedNote i t c cat tags =>
      <["tags" := JList tags]> (<["category" := JStr cat]> (Note_to_dict i t c))
  end.

(** What a path holds: text that [json.load] rejects, or a JSON array of
    objects. *)
Inductive file : Type :=
| Malformed
| Parsed (data : list jdict).

Inductive message : Type :=
| ErrorLoading
| ErrorSaving
| AddedSuccessfully (title category : string)
| DeletedSuccessfully (note_id : Z)
| NotFound (note_id : Z).

(** The observable effects: a [print], or an [open] of the notes file. *)
Inductive event : Type :=
| Print (m : message)
| OpenRead (path : string)
| OpenWrite (path : string).

(** The environment of the program: the files, the paths on which
    [open(path, 'r')] respectively [open(path, 'w')] raises [IOError], and
    the effects so far (latest last). *)
Record world : Type := World {
  files : gmap string file;
  unreadable : gset string;
  unwritable : gset string;
  trace : list event
}.

Definition emit (e : event) (w : world) : world :=
  World (files w) (unreadable w) (unwritable w) (trace w ++ [e]).

Definition write_file (path : string) (f : file) (w : world) : world :=
  World (<[path := f]> (files w)) (unreadable w) (unwritable w) (trace w).

Definition as_int (v : jvalue) : option Z :=
  match v with JInt z => Some z | _ => None end.

Definition as_str (v : jvalue) : option string :=
  match v with JStr s => Some s | _ => None end.

(** The body of the [for item in data] loop. [item[k]] raises [KeyError] on
    a missing key, which [_load_notes] does not catch: [None] stands for that
    exception. A value of another type than the class annotations demand has
    no counterpart among the typed notes and is [None] as well. *)
Definition item_to_note (item : jdict) : option note :=
  if decide (is_Some (item !! "category")) then
    i ← item !! "id" ≫= as_int;
    t ← item !! "title" ≫= as_str;
    c ← item !! "content" ≫= as_str;
    cat ← item !! "category" ≫= as_str;
    Some (CategorizedNote i t c cat)
  else
    i ← item !! "id" ≫= as_int;
    t ← item !! "title" ≫= as_str;
    c ← item !! "content" ≫= as_str;
    Some (Note i t c).

(** [_load_notes]: the notes read ([None] when an exception escapes) and the
    world afterwards. *)
Definition _load_notes (file_path : string) (w : world)
  : option (list note) * world :=
  match files w !! file_path with
  | None => (Some [], w)
  | Some f =>
      let w := emit (OpenRead file_path) w in
      if decide (file_path ∈ unreadable w) then
        (Some [], emit (Print ErrorLoading) w)
      else
        match f with
        | Malformed => (Some [], emit (Print ErrorLoading) w)
        | Parsed data => (mapM item_to_note data, w)
        end
  end.

(** [_save_notes]: [open(..., 'w')] either raises [IOError], which is
    reported and leaves the file as it was, or the file is replaced by the
    dump of [[note.to_dict() for note in self.notes]]. *)
Definition _save_notes (file_path : string) (notes : list note) (w : world)
  : world :=
  let w := emit (OpenWrite file_path) w in
  if decide (file_path ∈ unwritable w) then emit (Print ErrorSaving) w
  else write_file file_path (Parsed (to_dict <$> notes)) w.

(** ** The organizer *)

Record NoteOrganizer : Type := Organizer {
  file_path : string;
  notes : list note
}.

(** [NoteOrganizer.__init__]. *)
Definition init (path : string) (w : world) : option NoteOrganizer * world :=
  let '(r, w') := _load_notes path w in (Organizer path <$> r, w').

(** [self.notes[-1].get_id() + 1 if self.notes else 1]. *)
Definition new_id (notes : list note) : Z :=
  match last notes with
  | Some n => get_id n + 1
  | None => 1
  end.

(** [add_note]; [r] is the draw handed to [random.choice]. *)
Definition add_note (r : nat) (title content : string)
    (o : NoteOrganizer) (w : world) : NoteOrganizer * world :=
  let i := new_id (notes o) in
  let category := _categorize_note r title content in
  let new_note := CategorizedNote i title content category in
  let o' := Organizer (file_path o) (notes o ++ [new_note]) in
  let w' := _save_notes (file_path o') (notes o') w in
  (o', emit (Print (AddedSuccessfully title category)) w').

(** [delete_note]. *)
Definition delete_note (note_id : Z) (o : NoteOrganizer) (w : world)
  : NoteOrganizer * world :=
  let original_count := length (notes o) in
  let o' := Organizer (file_path o)
              (filter (λ note, get_id note ≠ note_id) (notes o)) in
  if (length (notes o') <? original_count)%nat then
    let w' := _save_notes (file_path o') (notes o') w in
    (o', emit (Print (DeletedSuccessfully note_id)) w')
  else
    (o', emit (Print (NotFound note_id)) w).

(** [if category:] is false for [None] and for the empty string. *)
Definition truthy (s : option string) : bool :=
  match s with
  | None | Some EmptyString => false
  | Some (String _ _) => true
  end.

(** [view_notes]: the method prints [filtered_notes]; the model returns that
    list. *)
Definition view_notes (category_filter : option string) (o : NoteOrganizer)
  : list note :=
  match category_filter with
  | Some c =>
      if truthy category_filter then
        filter
          (λ note, isinstance_CategorizedNote note &&
                   match category note with
                   | Some nc => bool_decide (Text.lower nc = Text.lower c)
                   | None => false
                   end)
          (notes o)
      else notes o
  | None => notes o
  end.

(** [search_notes]: the method prints [found_notes]; the model returns that
    list. *)
Definition search_notes (query : string) (o : NoteOrganizer) : list note :=
  let query := Text.lower query in
  filter
    (λ note, Text.contains query (Text.lower (title note)) ||
             Text.contains query (Text.lower (content note)))
    (notes o).

(** ** Tags *)

Inductive tag_message : Type :=
| TagAdded (tag : string)
| TagAlreadyExists (tag : string).

(** [TaggingMixin.__init__]: [self.tags = tags if tags else []]; [None] and
    the empty list both give a fresh empty list. *)
Definition init_tags (tags : option (list string)) : list string :=
  match tags with
  | Some (t :: l) => t :: l
  | Some [] | None => []
  end.

(** [TaggingMixin.add_tag], on the list [self.tags]: the list afterwards and
    the message printed. *)
Definition add_tag (tag : string) (tags : list string)
  : list string * tag_message :=
  if decide (tag ∉ tags) then (tags ++ [tag], TagAdded tag)
  else (tags, TagAlreadyExists tag).

(** Successive [add_tag] calls, one per element of [l], on a tag list. *)
Definition add_tags (l : list string) (tags : list string) : list string :=
  foldl (λ ts tag, (add_tag tag ts).1) tags l.

(** ** Sequences of mutations *)

(** The two mutating calls of the menu loop. *)
Inductive op : Type :=
| Add (r : nat) (title content : string)
| Delete (note_id : Z).

Definition exec (c : op) (s : NoteOrganizer * world) : NoteOrganizer * world :=
  match c with
  | Add r t b => add_note r t b s.1 s.2
  | Delete i => delete_note i s.1 s.2
  end.

Fixpoint run (ops : list op) (s : NoteOrganizer * world)
  : NoteOrganizer * world :=
  match ops with
  | [] => s
  | c :: ops' => run ops' (exec c s)
  end.

(** What a run does to IDs: [Assigned i] when [add_note] creates the note
    with ID [i], [Removed i] when [delete_note] removes a note bearing [i]. *)
Inductive id_event : Type :=
| Assigned (i : Z)
| Removed (i : Z).

Definition id_events (c : op) (o : NoteOrganizer) : list id_event :=
  match c with
  | Add _ _ _ => [Assigned (new_id (notes o))]
  | Delete i => if decide (i ∈ get_id <$> notes o) then [Removed i] else []
  end.

Fixpoint id_history (ops : list op) (s : NoteOrganizer * world)
  : list id_event :=
  match ops with
  | [] => []
  | c :: ops' => id_events c s.1 ++ id_history ops' (exec c s)
  end.

(** A sequence of [add_note] calls, one per triple of draw, title and
    content. *)
Definition adds (args : list (nat * string * string)) : list op :=
  (λ a, Add a.1.1 a.1.2 a.2) <$> args.

(** A fresh organizer on [path] with no notes. *)
Definition empty_organizer (path : string) : NoteOrganizer := Organizer path [].

(** ** Specification vocabulary *)

(** [m] is the maximum of the IDs in [ns]. *)
Definition is_max_id (m : Z) (ns : list note) : Prop :=
  m ∈ get_id <$> ns ∧ ∀ i, i ∈ get_id <$> ns → i ≤ m.

(** The ID rule in the words of the specification: the maximum existing ID
    plus one, or one for the empty collection. *)
Definition spec_new_id (ns : list note) : Z :=
  match get_id <$> ns with
  | [] => 1
  | i :: ids => foldr Z.max i ids + 1
  end.

(** Some [add_note] of the history hands out an ID that an earlier
    [delete_note] had removed. *)
Definition reuses_deleted_id (h : list id_event) : Prop :=
  ∃ i h1 h2 h3, h = h1 ++ Removed i :: h2 ++ Assigned i :: h3.

(** A note as [_load_notes] rebuilds it: the tags, which the loader never
    reads, are gone. *)
Definition untag (n : note) : note :=
  match n with
  | TaggedCategorizedNote i t c cat _ => CategorizedNote i t c cat
  | _ => n
  end.

(** [l'] holds exactly the elements of [l] that satisfy [P], each as often
    as in [l] and in the order of [l]. *)
Inductive selects {A : Type} (P : A → Prop) : list A → list A → Prop :=
| selects_nil : selects P [] []
| selects_keep x l l' : P x → selects P l l' → selects P (x :: l) (x :: l')
| selects_skip x l l' : ¬ P x → selects P l l' → selects P (x :: l) l'.


(** The query occurs in the title or in the content, letter case aside. *)
Definition matches_query (query : string) (n : note) : Prop :=
  Text.Substring (Text.lower query) (Text.lower (title n)) ∨
  Text.Substring (Text.lower query) (Text.lower (content n)).

(** The note has a category that equals the filter, letter case aside. *)
Definition in_category (c : string) (n : note) : Prop :=
  ∃ nc, category n = Some nc ∧ Text.lower nc = Text.lower c.


(** Some keyword of the list [kws] occurs in [text]. *)
Definition triggers (text : string) (kws : list string) : Prop :=
  ∃ kw, kw ∈ kws ∧ Text.Substring kw text.


(** [cat] is the first category, in table order, with a keyword in [text]. *)
Definition first_category (text : string) (table : list (string * list string))
    (cat : string) : Prop :=
  ∃ pre kws post,
    table = pre ++ (cat, kws) :: post ∧
    triggers text kws ∧
    Forall (λ e, ¬ triggers text e.2) pre.

Definition five_categories : list string :=
  ["Work"; "Personal"; "Study"; "Idea"; "General"].

(** The notes file of the organizer holds the dump of its collection. *)
Definition in_sync (s : NoteOrganizer * world) : Prop :=
  files s.2 !! file_path s.1 = Some (Parsed (to_dict <$> notes s.1)).

(** * Properties *)

(** ** Strings *)

Module TextFacts.
Import Text.


Lemma sapp_cons (a : ascii) (s t : string) :
  String a s +:+ t = String a (s +:+ t).
Proof. reflexivity. Qed.

Lemma sapp_nil_r (s : string) : s +:+ EmptyString = s.
Proof. induction s as [|a s IH]; [done|]. by rewrite sapp_cons, IH. Qed.

Lemma sapp_assoc (s t u : string) : (s +:+ t) +:+ u = s +:+ t +:+ u.
Proof. induction s as [|a s IH]; [done|]. by rewrite !sapp_cons, IH. Qed.

Lemma lower_app (s t : string) : lower (s +:+ t) = lower s +:+ lower t.
Proof.
  induction s as [|a s IH]; [done|].
  rewrite sapp_cons. simpl. by rewrite IH, sapp_cons.
Qed.

Lemma lower_char_idemp (c : ascii) : lower_char (lower_char c) = lower_char c.
Proof. destruct c as [[] [] [] [] [] [] [] []]; reflexivity. Qed.

Lemma lower_idemp (s : string) : lower (lower s) = lower s.
Proof.
  induction s as [|a s IH]; [done|]. simpl. by rewrite lower_char_idemp, IH.
Qed.

Lemma startswith_spec (p s : string) :
  startswith p s = true ↔ ∃ post, s = p +:+ post.
Proof.
  revert s. induction p as [|a p IH]; intros s; simpl.
  - split; [intros _; by exists s | done].
  - destruct s as [|b s].
    + split; [done | intros [post H]; by rewrite sapp_cons in H].
    + destruct (decide (a = b)) as [->|Hne].
      * rewrite IH. split; intros [post H]; exists post.
        -- by rewrite sapp_cons, H.
        -- rewrite sapp_cons in H. by injection H.
      * split; [done | intros [post H]]. rewrite sapp_cons in H.
        injection H as -> _. by destruct Hne.
Qed.

(** The executable [in] decides [Substring]. *)
Lemma contains_spec (k s : string) : contains k s = true ↔ Substring k s.
Proof.
  unfold Substring. induction s as [|b s IH]; simpl.
  - rewrite orb_false_r, startswith_spec. split.
    + intros [post H]. by exists EmptyString, post.
    + intros ([|c pre] & post & H); [by exists post|].
      by rewrite sapp_cons in H.
  - rewrite orb_true_iff, startswith_spec, IH. split.
    + intros [[post H] | (pre & post & H)].
      * by exists EmptyString, post.
      * exists (String b pre), post. by rewrite sapp_cons, H.
    + intros ([|c pre] & post & H).
      * left. by exists post.
      * right. rewrite sapp_cons in H. injection H as -> ->. by exists pre, post.
Qed.

Lemma contains_false (k s : string) : contains k s = false ↔ ¬ Substring k s.
Proof. rewrite <- contains_spec. by destruct (contains k s). Qed.


Lemma Substring_app_l (k s t : string) : Substring k s → Substring k (s +:+ t).
Proof.
  intros (pre & post & ->). exists pre, (post +:+ t).
  by rewrite !sapp_assoc.
Qed.

Lemma Substring_app_r (k s t : string) : Substring k t → Substring k (s +:+ t).
Proof.
  intros (pre & post & ->). exists (s +:+ pre), post.
  by rewrite !sapp_assoc.
Qed.



Lemma no_space_lower_space : lower " " = " ".
Proof. reflexivity. Qed.

End TextFacts.

(** ** Categorisation *)

Section Categorize.
Import Text TextFacts.

Lemma existsb_triggers (text : string) (kws : list string) :
  existsb (λ kw, contains kw text) kws = true ↔ triggers text kws.
Proof.
  unfold triggers. rewrite existsb_exists. split.
  - intros (kw & Hin & H). exists kw.
    by rewrite list_elem_of_In, <- contains_spec.
  - intros (kw & Hin & H). exists kw.
    by rewrite <- list_elem_of_In, contains_spec.
Qed.

Lemma first_match_Some text table cat :
  first_match text table = Some cat ↔ first_category text table cat.
Proof.
  unfold first_category. induction table as [|[c kws] rest IH]; simpl.
  - split; [done | intros (pre & ? & ? & H & _)]. by destruct pre.
  - destruct (existsb _ kws) eqn:E.
    + apply existsb_triggers in E. split.
      * intros [= ->]. by exists [], kws, rest.
      * intros ([|e pre] & kws' & post & H & Ht & Hpre).
        -- by injection H as -> _ _.
        -- injection H as <- _. apply Forall_cons in Hpre as [Hno _].
           by destruct Hno.
    + assert (¬ triggers text kws) as Hno.
      { rewrite <- existsb_triggers. by rewrite E. }
      rewrite IH. split.
      * intros (pre & kws' & post & -> & Ht & Hpre).
        exists ((c, kws) :: pre), kws', post. split_and!; [done..|].
        by apply Forall_cons.
      * intros ([|e pre] & kws' & post & H & Ht & Hpre).
        -- injection H as -> -> _. by destruct Hno.
        -- injection H as <- ->. apply Forall_cons in Hpre as [_ Hpre].
           by exists pre, kws', post.
Qed.





Lemma fallback_pool_eq : fallback_pool = five_categories.
Proof. reflexivity. Qed.

Lemma random_choice_in_pool r : random_choice r fallback_pool ∈ five_categories.
Proof.
  rewrite fallback_pool_eq. unfold random_choice.
  apply list_elem_of_In, nth_In. simpl. lia.
Qed.

Lemma keys_in_five cat kws :
  (cat, kws) ∈ keywords → cat ∈ five_categories.
Proof.
  intros H. unfold keywords in H. unfold five_categories.
  repeat (apply elem_of_cons in H as [[= -> _]|H]; [set_solver|]).
  by apply elem_of_nil in H.
Qed.

Lemma categorize_in_five r title content :
  _categorize_note r title content ∈ five_categories.
Proof.
  unfold _categorize_note. cbv zeta.
  destruct (first_match _ keywords) as [cat|] eqn:E.
  - apply first_match_Some in E as (pre & kws & post & H & _).
    apply (keys_in_five cat kws). rewrite H. set_solver.
  - apply random_choice_in_pool.
Qed.


Lemma categorize_match r title content cat :
  first_match (note_text title content) keywords = Some cat →
  _categorize_note r title content = cat.
Proof. intros E. unfold _categorize_note. cbv zeta. by rewrite E. Qed.




End Categorize.

(** ** Claims about [_categorize_note] *)

Section CategorizeClaims.
Import Text TextFacts.






End CategorizeClaims.

Section Determinism.
Import Text TextFacts.




End Determinism.

(** ** The collection *)

Section Collection.

Lemma filter_all {A} (P : A → Prop) `{!∀ x, Decision (P x)} (l : list A) :
  Forall P l → filter P l = l.
Proof.
  induction 1 as [|x l Hx _ IH]; [done|].
  by rewrite filter_cons_True, IH.
Qed.

Lemma notes_add_note r t c o w :
  notes (add_note r t c o w).1 =
  notes o ++ [CategorizedNote (new_id (notes o)) t c (_categorize_note r t c)].
Proof. reflexivity. Qed.

Lemma notes_delete_note i o w :
  notes (delete_note i o w).1 = filter (λ n, get_id n ≠ i) (notes o).
Proof. unfold delete_note. cbv zeta. by case_match. Qed.

Lemma new_id_snoc ns n : new_id (ns ++ [n]) = get_id n + 1.
Proof. unfold new_id. by rewrite last_snoc. Qed.

Lemma run_app ops1 ops2 s : run (ops1 ++ ops2) s = run ops2 (run ops1 s).
Proof. revert s. induction ops1 as [|c ops1 IH]; intros s; [done|]. apply IH. Qed.

(** C4: deleting an ID that no note bears reports [NotFound], leaves the
    organizer as it was (same notes, same order, same size), and performs no
    save: the file is not opened for writing, no file changes, and the only
    effect is the [NotFound] message. *)
Theorem C4_delete_absent_id (note_id : Z) (o : NoteOrganizer) (w : world) :
  note_id ∉ get_id <$> notes o →
  let o' := (delete_note note_id o w).1 in
  let w' := (delete_note note_id o w).2 in
  o' = o ∧
  notes o' = notes o ∧
  length (notes o') = length (notes o) ∧
  trace w' = trace w ++ [Print (NotFound note_id)] ∧
  files w' = files w ∧
  w' = emit (Print (NotFound note_id)) w ∧
  ∀ path, OpenWrite path ∉ drop (length (trace w)) (trace w').
Proof.
  intros Habs.
  assert (filter (λ n, get_id n ≠ note_id) (notes o) = notes o) as Hf.
  { apply filter_all, Forall_forall. intros n Hn <-.
    apply Habs, list_elem_of_fmap. by exists n. }
  unfold delete_note. cbv zeta. simpl. rewrite Hf.
  rewrite (proj2 (Nat.ltb_ge _ _)) by done. simpl.
  split_and!; try done.
  - by destruct o.
  - intros path. rewrite drop_app_length.
    by intros [[=]|[]%elem_of_nil]%elem_of_cons.
Qed.

Lemma C4_witness :
  let o := Organizer "notes.json" [CategorizedNote 1 "a" "b" "Work"] in
  let w := World ∅ ∅ ∅ [] in
  (7 ∉ get_id <$> notes o) ∧ (delete_note 7 o w).1 = o.
Proof.
  assert (7 ∉ get_id <$> [CategorizedNote 1 "a" "b" "Work"]) as H.
  { simpl. by intros [[=]|[]%elem_of_nil]%elem_of_cons. }
  split; [exact H|].
  exact (proj1 (C4_delete_absent_id 7
    (Organizer "notes.json" [CategorizedNote 1 "a" "b" "Work"])
    (World ∅ ∅ ∅ []) H)).
Defined.

(** *** Successive additions *)

Lemma id_history_adds args s :
  id_history (adds args) s =
  Assigned <$> seqZ (new_id (notes s.1)) (Z.of_nat (length args)).
Proof.
  revert s. induction args as [|[[r t] c] args IH]; intros s; [done|].
  cbn [adds fmap list_fmap id_history id_events app length].
  rewrite seqZ_cons by lia. rewrite fmap_cons. f_equal.
  fold (adds args). rewrite IH. cbn [exec fst snd].
  rewrite notes_add_note, new_id_snoc. simpl get_id.
  do 2 f_equal; lia.
Qed.

Lemma ids_run_adds args s :
  get_id <$> notes (run (adds args) s).1 =
  (get_id <$> notes s.1) ++ seqZ (new_id (notes s.1)) (Z.of_nat (length args)).
Proof.
  revert s. induction args as [|[[r t] c] args IH]; intros s.
  - simpl. by rewrite app_nil_r.
  - cbn [adds fmap list_fmap run length]. fold (adds args). rewrite IH.
    cbn [exec fst snd]. rewrite notes_add_note, new_id_snoc. simpl get_id.
    rewrite fmap_app, <- app_assoc. f_equal. simpl.
    rewrite (seqZ_cons _ (Z.of_nat (S _))) by lia. do 2 f_equal; lia.
Qed.

(** C6: for every sequence of [add_note] calls on an organizer that starts
    with no notes, whatever the titles, contents, random draws, path and
    file system, the IDs handed out are 1, 2, 3, ... in this order, and they
    are the IDs of the collection afterwards. *)
Theorem C6_adds_number_from_one
    (args : list (nat * string * string)) (path : string) (w : world) :
  id_history (adds args) (empty_organizer path, w) =
    Assigned <$> seqZ 1 (Z.of_nat (length args)) ∧
  get_id <$> notes (run (adds args) (empty_organizer path, w)).1 =
    seqZ 1 (Z.of_nat (length args)) ∧
  ∀ k : nat, (k < length args)%nat →
    id_history (adds args) (empty_organizer path, w) !! k =
      Some (Assigned (Z.of_nat k + 1)).
Proof.
  split_and!.
  - by rewrite id_history_adds.
  - by rewrite ids_run_adds.
  - intros k Hk. rewrite id_history_adds, list_lookup_fmap.
    rewrite lookup_seqZ_lt by lia. simpl. do 2 f_equal. unfold new_id. simpl. lia.
Qed.

(** *** The ID invariant of reachable collections *)

Lemma sorted_below_new_id ns :
  StronglySorted Z.lt (get_id <$> ns) →
  ∀ i, i ∈ get_id <$> ns → i < new_id ns.
Proof.
  intros Hs i Hi. unfold new_id. destruct (last ns) as [x|] eqn:E.
  - apply last_Some in E as [l' ->]. rewrite fmap_app in Hs, Hi.
    apply elem_of_app in Hi as [Hi|Hi].
    + assert (i < get_id x); [|lia].
      apply (StronglySorted_app_1_elem_of _ _ _ _ _ Hs Hi). simpl. by left.
    + simpl in Hi. apply list_elem_of_singleton in Hi as ->. lia.
  - apply last_None in E as ->. by apply elem_of_nil in Hi.
Qed.

Lemma sorted_add ns n :
  StronglySorted Z.lt (get_id <$> ns) → get_id n = new_id ns →
  StronglySorted Z.lt (get_id <$> (ns ++ [n])).
Proof.
  intros Hs Hn. rewrite fmap_app. apply StronglySorted_app. split_and!.
  - intros x1 x2 H1 H2. simpl in H2. apply list_elem_of_singleton in H2 as ->.
    rewrite Hn. by apply sorted_below_new_id.
  - done.
  - simpl. repeat constructor.
Qed.

Lemma sorted_filter (P : note → Prop) `{!∀ n, Decision (P n)} ns :
  StronglySorted Z.lt (get_id <$> ns) →
  StronglySorted Z.lt (get_id <$> filter P ns).
Proof.
  induction ns as [|n ns IH]; [done|]. rewrite fmap_cons, StronglySorted_cons.
  intros [Hall Hs]. rewrite filter_cons. case_decide; [|by apply IH].
  rewrite fmap_cons, StronglySorted_cons. split; [|by apply IH].
  rewrite Forall_forall in Hall. apply Forall_forall. intros i Hi.
  apply Hall. apply list_elem_of_fmap in Hi as (m & -> & Hm).
  apply list_elem_of_fmap. exists m. split; [done|].
  by apply list_elem_of_filter in Hm as [_ Hm].
Qed.

Lemma sorted_NoDup (l : list Z) : StronglySorted Z.lt l → NoDup l.
Proof.
  induction 1 as [|x l _ IH Hall]; constructor; [|done].
  intros Hin. rewrite Forall_forall in Hall. specialize (Hall x Hin). lia.
Qed.

Lemma sorted_exec c s :
  StronglySorted Z.lt (get_id <$> notes s.1) →
  StronglySorted Z.lt (get_id <$> notes (exec c s).1).
Proof.
  intros Hs. destruct c as [r t b|i]; cbn [exec].
  - rewrite notes_add_note. by apply sorted_add.
  - rewrite notes_delete_note. by apply sorted_filter.
Qed.

Lemma sorted_run ops s :
  StronglySorted Z.lt (get_id <$> notes s.1) →
  StronglySorted Z.lt (get_id <$> notes (run ops s).1).
Proof.
  revert s. induction ops as [|c ops IH]; intros s Hs; [done|].
  simpl. by apply IH, sorted_exec.
Qed.

Lemma foldr_max_is_max (i : Z) (ids : list Z) :
  foldr Z.max i ids ∈ i :: ids ∧ ∀ j, j ∈ i :: ids → j ≤ foldr Z.max i ids.
Proof.
  induction ids as [|a ids [IHin IHle]]; simpl.
  - split; [by left|]. intros j Hj. apply list_elem_of_singleton in Hj. lia.
  - split.
    + destruct (Z.max_spec a (foldr Z.max i ids)) as [[_ ->]|[_ ->]].
      * apply elem_of_cons in IHin as [->|Hin]; [by left|]. by do 2 right.
      * right. by left.
    + intros j Hj. assert (j = a ∨ j ∈ i :: ids) as [->|Hj'].
      { apply elem_of_cons in Hj as [->|Hj]; [right; by left|].
        apply elem_of_cons in Hj as [->|Hj]; [by left|right; by right]. }
      * lia.
      * specialize (IHle j Hj'). lia.
Qed.

Lemma spec_new_id_is_max ns :
  ns ≠ [] → ∃ m, is_max_id m ns ∧ spec_new_id ns = m + 1.
Proof.
  intros Hne. unfold spec_new_id, is_max_id.
  destruct ns as [|n ns]; [done|]. rewrite fmap_cons.
  exists (foldr Z.max (get_id n) (get_id <$> ns)). split; [|done].
  apply foldr_max_is_max.
Qed.

Lemma sorted_new_id_max ns m :
  StronglySorted Z.lt (get_id <$> ns) → is_max_id m ns → new_id ns = m + 1.
Proof.
  intros Hs [Hin Hle]. pose proof (sorted_below_new_id ns Hs m Hin) as Hlt.
  revert Hlt. unfold new_id. destruct (last ns) as [x|] eqn:E.
  - intros Hlt. assert (get_id x ≤ m); [|lia]. apply Hle.
    apply list_elem_of_fmap. exists x. split; [done|].
    by apply last_Some_elem_of.
  - apply last_None in E as ->. by apply elem_of_nil in Hin.
Qed.

Lemma sorted_new_id_spec ns :
  StronglySorted Z.lt (get_id <$> ns) → new_id ns = spec_new_id ns.
Proof.
  intros Hs. destruct (decide (ns = [])) as [->|Hne]; [done|].
  destruct (spec_new_id_is_max ns Hne) as (m & Hm & ->).
  by apply sorted_new_id_max.
Qed.

(** C1, as stated, fails on both counts. Adding two notes, deleting the
    note with ID 2 and adding again hands out ID 2 a second time; and in a
    collection loaded from a file whose records bear the IDs 5 and 2, in this
    order, the next ID is 3, whereas the maximum plus one is 6. *)
Lemma C1_id_reused_counterexample :
  id_history [Add 0 "a" "x"; Add 0 "b" "y"; Delete 2; Add 0 "c" "z"]
    (empty_organizer "notes.json", World ∅ ∅ ∅ []) =
    [Assigned 1; Assigned 2; Removed 2; Assigned 2] ∧
  reuses_deleted_id
    (id_history [Add 0 "a" "x"; Add 0 "b" "y"; Delete 2; Add 0 "c" "z"]
       (empty_organizer "notes.json", World ∅ ∅ ∅ [])) ∧
  (_load_notes "notes.json"
     (World {[ "notes.json" := Parsed [to_dict (Note 5 "a" "x");
                                       to_dict (Note 2 "b" "y")] ]}
            ∅ ∅ [])).1 = Some [Note 5 "a" "x"; Note 2 "b" "y"] ∧
  new_id [Note 5 "a" "x"; Note 2 "b" "y"] = 3 ∧
  spec_new_id [Note 5 "a" "x"; Note 2 "b" "y"] = 6.
Proof.
  assert (id_history [Add 0 "a" "x"; Add 0 "b" "y"; Delete 2; Add 0 "c" "z"]
            (empty_organizer "notes.json", World ∅ ∅ ∅ []) =
          [Assigned 1; Assigned 2; Removed 2; Assigned 2]) as H
    by (vm_compute; reflexivity).
  split_and!; [exact H | | vm_compute; reflexivity | reflexivity..].
  rewrite H. by exists 2, [Assigned 1; Assigned 2], [], [].
Qed.

(** C1, amended: the ID [add_note] assigns is the ID of the last note of the
    collection plus one, or one for the empty collection. In every
    collection reached from the empty one by [add_note] and [delete_note]
    calls the IDs are strictly increasing, so the assigned ID is the maximum
    existing ID plus one and exceeds every ID in the collection: no two notes
    of the collection share an ID. *)
Theorem C1_new_id_after_last :
  new_id [] = 1 ∧
  (∀ ns n, new_id (ns ++ [n]) = get_id n + 1) ∧
  (∀ r t c o w,
     notes (add_note r t c o w).1 =
     notes o ++ [CategorizedNote (new_id (notes o)) t c (_categorize_note r t c)]) ∧
  ∀ (ops : list op) (path : string) (w : world),
    let ns := notes (run ops (empty_organizer path, w)).1 in
    StronglySorted Z.lt (get_id <$> ns) ∧
    NoDup (get_id <$> ns) ∧
    new_id ns = spec_new_id ns ∧
    (∀ m, is_max_id m ns → new_id ns = m + 1) ∧
    (∀ i, i ∈ get_id <$> ns → i < new_id ns) ∧
    new_id ns ∉ get_id <$> ns.
Proof.
  split_and!; [done | apply new_id_snoc | apply notes_add_note |].
  intros ops path w ns.
  assert (StronglySorted Z.lt (get_id <$> ns)) as Hs.
  { apply sorted_run. simpl. constructor. }
  split_and!.
  - done.
  - by apply sorted_NoDup.
  - by apply sorted_new_id_spec.
  - intros m. by apply sorted_new_id_max.
  - by apply sorted_below_new_id.
  - intros Hin. apply (sorted_below_new_id ns Hs) in Hin. lia.
Qed.

End Collection.

(** ** Persistence *)

Section Persistence.

Lemma item_to_note_to_dict (n : note) : item_to_note (to_dict n) = Some (untag n).
Proof. destruct n; vm_compute; reflexivity. Qed.

Lemma mapM_item_to_note (ns : list note) :
  mapM item_to_note (to_dict <$> ns) = Some (untag <$> ns).
Proof.
  apply mapM_Some. induction ns as [|n ns IH]; [constructor|].
  rewrite !fmap_cons. constructor; [apply item_to_note_to_dict | done].
Qed.





End Persistence.

(** ** Listing and searching *)

Section Queries.
Import Text TextFacts.




(** [selects] determines its result. *)
Lemma selects_unique {A} (P : A → Prop) (l l1 l2 : list A) :
  selects P l l1 → selects P l l2 → l1 = l2.
Proof.
  intros H1. revert l2.
  induction H1 as [|x l l1 Hx _ IH|x l l1 Hx _ IH]; intros l2 H2;
    inversion H2; subst; try done.
  - f_equal. by apply IH.
  - by apply IH.
Qed.

Lemma search_test_spec (query : string) (n : note) :
  contains (lower query) (lower (title n)) ||
  contains (lower query) (lower (content n)) = true ↔ matches_query query n.
Proof. unfold matches_query. by rewrite orb_true_iff, !contains_spec. Qed.

Lemma view_test_spec (c : string) (n : note) :
  isinstance_CategorizedNote n &&
  match category n with
  | Some nc => bool_decide (lower nc = lower c)
  | None => false
  end = true ↔ in_category c n.
Proof.
  unfold in_category. destruct n as [i t b|i t b nc|i t b nc tags]; simpl.
  - split; [done | by intros (? & [=] & _)].
  - rewrite bool_decide_eq_true. split; [by exists nc|].
    by intros (? & [= <-] & ?).
  - rewrite bool_decide_eq_true. split; [by exists nc|].
    by intros (? & [= <-] & ?).
Qed.





(** C10: with the empty string as filter [view_notes] behaves as without a
    filter and yields every note of the collection, not the notes whose
    category is the empty string. *)
Theorem C10_empty_filter_lists_all (o : NoteOrganizer) :
  view_notes (Some EmptyString) o = notes o ∧
  view_notes (Some EmptyString) o = view_notes None o.
Proof. by split. Qed.

End Queries.

(** ** Further properties of [_categorize_note] *)

Section CategorizeMore.
Import Text TextFacts.

Lemma note_text_app (t c : string) :
  note_text t c = lower t +:+ " " +:+ lower c.
Proof. unfold note_text. by rewrite !lower_app. Qed.


(** X2: the category does not depend on letter case: inputs whose titles
    and contents agree after lower-casing are categorised alike under the
    same draw. *)
Theorem categorize_ignores_case (r : nat) (t c t' c' : string) :
  lower t = lower t' → lower c = lower c' →
  _categorize_note r t c = _categorize_note r t' c'.
Proof.
  intros Ht Hc. unfold _categorize_note. cbv zeta.
  by rewrite !note_text_app, Ht, Hc.
Qed.

Lemma categorize_ignores_case_witness :
  lower "Team MEETING" = lower "team meeting" ∧ lower "X" = lower "x" ∧
  _categorize_note 3 "Team MEETING" "X" = _categorize_note 3 "team meeting" "x".
Proof.
  assert (lower "Team MEETING" = lower "team meeting") as H1 by reflexivity.
  assert (lower "X" = lower "x") as H2 by reflexivity.
  split_and!; [exact H1 | exact H2 |].
  exact (categorize_ignores_case 3 _ _ _ _ H1 H2).
Defined.

(** X3: a keyword of the Work entry of the table anywhere in the title or
    the content, in any letter case and also inside a longer word, makes the
    category Work for every draw, whatever other keywords are present. *)
Theorem categorize_work_first (r : nat) (t c kw : string) (kws : list string) :
  ("Work", kws) ∈ keywords → kw ∈ kws →
  Substring kw (lower t) ∨ Substring kw (lower c) →
  _categorize_note r t c = "Work".
Proof.
  intros Hin Hkw Hsub. apply categorize_match.
  assert (kws = ["meeting"; "project"; "deadline"; "report"; "task"; "work"])
    as ->.
  { unfold keywords in Hin.
    apply elem_of_cons in Hin as [[= ->]|Hin]; [done|].
    repeat (apply elem_of_cons in Hin as [[=]|Hin]).
    by apply elem_of_nil in Hin. }
  assert (triggers (note_text t c)
            ["meeting"; "project"; "deadline"; "report"; "task"; "work"]) as Ht.
  { exists kw. split; [done|]. rewrite note_text_app. destruct Hsub as [H|H].
    - by apply Substring_app_l.
    - by apply Substring_app_r, Substring_app_r. }
  apply existsb_triggers in Ht. unfold keywords. cbn [first_match].
  by rewrite Ht.
Qed.

Lemma categorize_work_first_witness :
  ("Work", ["meeting"; "project"; "deadline"; "report"; "task"; "work"])
    ∈ keywords ∧
  "work" ∈ ["meeting"; "project"; "deadline"; "report"; "task"; "work"] ∧
  (Substring "work" (lower "gym") ∨ Substring "work" (lower "Homework exam")) ∧
  _categorize_note 2 "gym" "Homework exam" = "Work".
Proof.
  assert (("Work", ["meeting"; "project"; "deadline"; "report"; "task"; "work"])
            ∈ keywords) as H0 by left.
  assert ("work" ∈ ["meeting"; "project"; "deadline"; "report"; "task"; "work"])
    as H1 by (do 5 right; left).
  assert (Substring "work" (lower "gym") ∨ Substring "work" (lower "Homework exam"))
    as H2 by (right; by apply contains_spec).
  split_and!; [exact H0 | exact H1 | exact H2 |].
  exact (categorize_work_first 2 "gym" "Homework exam" "work" _ H0 H1 H2).
Defined.

(** X4: General is never assigned by a keyword: [_categorize_note] returns
    General only when no keyword matches and the draw selects the last pool
    entry. *)
Theorem categorize_general_only_by_draw (r : nat) (t c : string) :
  _categorize_note r t c = "General" →
  first_match (note_text t c) keywords = None ∧ (r mod 5 = 4)%nat.
Proof.
  unfold _categorize_note. cbv zeta.
  destruct (first_match _ keywords) as [cat|] eqn:E.
  - intros ->. apply first_match_Some in E as (pre & kws & post & H & _).
    assert (("General", kws) ∈ keywords) as Hin by (rewrite H; set_solver).
    unfold keywords in Hin.
    repeat (apply elem_of_cons in Hin as [[=]|Hin]).
    by apply elem_of_nil in Hin.
  - intros H. split; [done|]. unfold random_choice in H.
    change (length fallback_pool) with 5%nat in H.
    pose proof (Nat.mod_upper_bound r 5) as Hlt.
    destruct (r mod 5)%nat as [|[|[|[|[|k]]]]]; try done. lia.
Qed.

Lemma categorize_general_only_by_draw_witness :
  _categorize_note 9 "hello" "there" = "General" ∧ (9 mod 5 = 4)%nat.
Proof.
  assert (_categorize_note 9 "hello" "there" = "General") as H by reflexivity.
  split; [exact H|].
  exact (proj2 (categorize_general_only_by_draw 9 "hello" "there" H)).
Defined.

End CategorizeMore.

(** ** Tags *)

Section Tags.

(** X5: [add_tag] keeps a duplicate-free tag list duplicate-free, leaves
    the earlier tags in place, makes the tag a member, grows the list by one
    exactly when the tag is new, and a second call with the same tag changes
    nothing and reports that the tag exists. *)
Theorem add_tag_keeps_tags_distinct (tag : string) (tags : list string) :
  tag ∈ (add_tag tag tags).1 ∧
  tags `prefix_of` (add_tag tag tags).1 ∧
  (NoDup tags → NoDup (add_tag tag tags).1) ∧
  (tag ∉ tags →
     add_tag tag tags = (tags ++ [tag], TagAdded tag)) ∧
  (tag ∈ tags → add_tag tag tags = (tags, TagAlreadyExists tag)) ∧
  add_tag tag (add_tag tag tags).1 = ((add_tag tag tags).1, TagAlreadyExists tag).
Proof.
  unfold add_tag. destruct (decide (tag ∉ tags)) as [Hno|Hin%dec_stable]; simpl.
  - split_and!; try done.
    + set_solver.
    + by exists [tag].
    + intros Hnd. apply NoDup_app. split_and!; [done | | apply NoDup_singleton].
      intros x Hx ->%list_elem_of_singleton. by apply Hno.
    + rewrite decide_False; [done|]. intros H. apply H. set_solver.
  - split_and!; try done.
    rewrite decide_False; [done|]. by intros H.
Qed.

Lemma add_tag_NoDup tag tags : NoDup tags → NoDup (add_tag tag tags).1.
Proof.
  intros Hnd. unfold add_tag. case_decide as Hno; simpl; [|done].
  apply NoDup_app. split_and!; [done | | apply NoDup_singleton].
  intros x Hx ->%list_elem_of_singleton. by apply Hno.
Qed.

Lemma add_tag_elem_of tag tags x :
  x ∈ (add_tag tag tags).1 ↔ x ∈ tags ∨ x = tag.
Proof.
  unfold add_tag. case_decide as Hno; simpl.
  - rewrite elem_of_app, list_elem_of_singleton. tauto.
  - split; [by left|]. by intros [?| ->].
Qed.

(** X6: tagging a note that was created without tags, with any sequence of
    tags, leaves a duplicate-free tag list that holds exactly the tags of
    the sequence. *)
Theorem add_tags_distinct_and_complete (l : list string) :
  NoDup (add_tags l (init_tags None)) ∧
  ∀ x, x ∈ add_tags l (init_tags None) ↔ x ∈ l.
Proof.
  assert (∀ tags, NoDup tags →
            NoDup (add_tags l tags) ∧
            ∀ x, x ∈ add_tags l tags ↔ x ∈ tags ∨ x ∈ l) as Hgen.
  { induction l as [|tag l IH]; intros tags Hnd; simpl.
    - split; [done|]. intros x. rewrite elem_of_nil. tauto.
    - destruct (IH (add_tag tag tags).1 (add_tag_NoDup tag tags Hnd))
        as [Hnd' Hin].
      split; [done|]. intros x.
      rewrite Hin, add_tag_elem_of, elem_of_cons. tauto. }
  destruct (Hgen [] (NoDup_nil_2)) as [Hnd Hin]. split; [done|].
  intros x. simpl. rewrite Hin, elem_of_nil. tauto.
Qed.

End Tags.

(** ** Further properties of the JSON file *)

Section PersistenceMore.

Lemma save_unwritable path ns w :
  unwritable (_save_notes path ns w) = unwritable w.
Proof. unfold _save_notes. cbv zeta. by case_decide. Qed.

Lemma save_unreadable path ns w :
  unreadable (_save_notes path ns w) = unreadable w.
Proof. unfold _save_notes. cbv zeta. by case_decide. Qed.

Lemma save_files_ok path ns w :
  path ∉ unwritable w →
  files (_save_notes path ns w) = <[path := Parsed (to_dict <$> ns)]> (files w).
Proof. intros H. unfold _save_notes. cbv zeta. simpl. by rewrite decide_False. Qed.

Lemma save_files_failed path ns w :
  path ∈ unwritable w → files (_save_notes path ns w) = files w.
Proof. intros H. unfold _save_notes. cbv zeta. simpl. by rewrite decide_True. Qed.

Lemma save_trace_ok path ns w :
  path ∉ unwritable w →
  trace (_save_notes path ns w) = trace w ++ [OpenWrite path].
Proof. intros H. unfold _save_notes. cbv zeta. simpl. by rewrite decide_False. Qed.

Lemma save_trace_failed path ns w :
  path ∈ unwritable w →
  trace (_save_notes path ns w) =
  trace w ++ [OpenWrite path; Print ErrorSaving].
Proof.
  intros H. unfold _save_notes. cbv zeta. simpl. rewrite decide_True by done.
  simpl. by rewrite <- app_assoc.
Qed.

Lemma save_files_other path path' ns w :
  path' ≠ path → files (_save_notes path ns w) !! path' = files w !! path'.
Proof.
  intros Hne. destruct (decide (path ∈ unwritable w)).
  - by rewrite save_files_failed.
  - rewrite save_files_ok by done. by rewrite lookup_insert_ne.
Qed.




Lemma item_to_note_missing_key (item : jdict) :
  item !! "id" = None ∨ item !! "title" = None ∨ item !! "content" = None →
  item_to_note item = None.
Proof.
  intros H. unfold item_to_note.
  destruct (item !! "id") as [[]|], (item !! "title") as [[]|],
    (item !! "content") as [[]|]; case_decide; simpl; try done;
    destruct H as [H|[H|H]]; done.
Qed.

(** X9: a stored record without an [id], a [title] or a [content] key makes
    [_load_notes] fail with an exception it does not catch, even when every
    other record is well formed. *)
Theorem load_raises_on_missing_key
    (path : string) (w : world) (data : list jdict) (item : jdict) :
  files w !! path = Some (Parsed data) → path ∉ unreadable w →
  item ∈ data →
  item !! "id" = None ∨ item !! "title" = None ∨ item !! "content" = None →
  (_load_notes path w).1 = None.
Proof.
  intros Hf Hr Hin Hmiss. unfold _load_notes. rewrite Hf. cbv zeta. simpl.
  rewrite decide_False by done. simpl. apply mapM_None, Exists_exists.
  exists item. split; [done|]. by apply item_to_note_missing_key.
Qed.

Lemma load_raises_on_missing_key_witness :
  let item : jdict := <["title" := JStr "a"]> (<["id" := JInt 1]> ∅) in
  let w := World {[ "notes.json" := Parsed [to_dict (Note 7 "x" "y"); item] ]}
             ∅ ∅ [] in
  (_load_notes "notes.json" w).1 = None.
Proof.
  refine (load_raises_on_missing_key "notes.json" _
            [to_dict (Note 7 "x" "y"); <["title" := JStr "a"]> (<["id" := JInt 1]> ∅)]
            (<["title" := JStr "a"]> (<["id" := JInt 1]> ∅)) _ _ _ _).
  - vm_compute; reflexivity.
  - apply not_elem_of_empty.
  - right. left.
  - right. right. vm_compute; reflexivity.
Defined.




Lemma to_dict_tags (n : note) :
  to_dict n !! "tags" =
  match n with
  | TaggedCategorizedNote _ _ _ _ tags => Some (JList tags)
  | _ => None
  end.
Proof. destruct n; vm_compute; reflexivity. Qed.

(** X11: [to_dict] loses nothing: two notes with the same dictionary are the
    same note, of the same class and with the same tags. *)
Theorem to_dict_injective (n n' : note) : to_dict n = to_dict n' → n = n'.
Proof.
  intros H.
  assert (untag n = untag n') as Hu.
  { apply (f_equal item_to_note) in H. rewrite !item_to_note_to_dict in H.
    by injection H. }
  assert (to_dict n !! "tags" = to_dict n' !! "tags") as Ht by (by rewrite H).
  rewrite !to_dict_tags in Ht.
  destruct n, n'; simpl in Hu; try discriminate; congruence.
Qed.

Lemma to_dict_injective_witness :
  to_dict (Note 1 "a" "b") = to_dict (Note 1 "a" "b") ∧
  Note 1 "a" "b" = Note 1 "a" "b".
Proof.
  split; [reflexivity|].
  exact (to_dict_injective (Note 1 "a" "b") (Note 1 "a" "b") eq_refl).
Defined.

End PersistenceMore.

(** ** Further properties of the mutating operations *)

Section Mutations.

Lemma organizer_eq (o o' : NoteOrganizer) :
  file_path o = file_path o' → notes o = notes o' → o = o'.
Proof. destruct o, o'. simpl. by intros -> ->. Qed.

Lemma file_path_add_note r t c o w :
  file_path (add_note r t c o w).1 = file_path o.
Proof. reflexivity. Qed.

Lemma file_path_delete_note i o w :
  file_path (delete_note i o w).1 = file_path o.
Proof. unfold delete_note. cbv zeta. by case_match. Qed.

Lemma world_add_note r t c o w :
  (add_note r t c o w).2 =
  emit (Print (AddedSuccessfully t (_categorize_note r t c)))
    (_save_notes (file_path o) (notes (add_note r t c o w).1) w).
Proof. reflexivity. Qed.

Lemma filter_shrinks i (ns : list note) :
  i ∈ get_id <$> ns →
  (length (filter (λ n, get_id n ≠ i) ns) < length ns)%nat.
Proof.
  intros (n & -> & Hn)%list_elem_of_fmap.
  apply (length_filter_lt _ _ n); [done|]. by intros H.
Qed.

Lemma world_delete_note_found i o w :
  i ∈ get_id <$> notes o →
  (delete_note i o w).2 =
  emit (Print (DeletedSuccessfully i))
    (_save_notes (file_path o) (filter (λ n, get_id n ≠ i) (notes o)) w).
Proof.
  intros Hin%filter_shrinks. unfold delete_note. cbv zeta. simpl.
  by rewrite (proj2 (Nat.ltb_lt _ _)).
Qed.

Lemma world_delete_note_absent i o w :
  i ∉ get_id <$> notes o →
  (delete_note i o w).2 = emit (Print (NotFound i)) w.
Proof.
  intros Habs.
  assert (filter (λ n, get_id n ≠ i) (notes o) = notes o) as Hf.
  { apply filter_all, Forall_forall. intros n Hn <-.
    apply Habs, list_elem_of_fmap. by exists n. }
  unfold delete_note. cbv zeta. simpl. rewrite Hf.
  by rewrite (proj2 (Nat.ltb_ge _ _)).
Qed.

Lemma ids_after_delete i (ns : list note) :
  i ∉ get_id <$> filter (λ n, get_id n ≠ i) ns.
Proof.
  intros (n & -> & Hn)%list_elem_of_fmap.
  by apply list_elem_of_filter in Hn as [Hne _].
Qed.

Lemma filter_selects_dec {A} (P : A → Prop) `{!∀ x, Decision (P x)} (l : list A) :
  selects P l (filter P l).
Proof.
  induction l as [|x l IH]; [constructor|].
  rewrite filter_cons. case_decide; by constructor.
Qed.

(** X12: when the notes file cannot be opened for writing, [add_note] still
    appends the note to the collection in memory and still prints its success
    message, after the save error; no file changes. *)
Theorem add_note_keeps_note_when_save_fails
    (r : nat) (t c : string) (o : NoteOrganizer) (w : world) :
  file_path o ∈ unwritable w →
  notes (add_note r t c o w).1 =
    notes o ++ [CategorizedNote (new_id (notes o)) t c (_categorize_note r t c)] ∧
  files (add_note r t c o w).2 = files w ∧
  trace (add_note r t c o w).2 =
    trace w ++ [OpenWrite (file_path o); Print ErrorSaving;
                Print (AddedSuccessfully t (_categorize_note r t c))].
Proof.
  intros Hw. rewrite world_add_note. simpl.
  rewrite save_files_failed, save_trace_failed by done.
  by rewrite <- app_assoc.
Qed.

Lemma add_note_keeps_note_when_save_fails_witness :
  let o := Organizer "notes.json" [] in
  let w := World ∅ ∅ {[ "notes.json" ]} [] in
  (file_path o ∈ unwritable w) ∧ files (add_note 0 "a" "b" o w).2 = files w.
Proof.
  assert ("notes.json" ∈ ({[ "notes.json" ]} : gset string)) as H
    by (by apply elem_of_singleton).
  split; [exact H|].
  exact (proj1 (proj2 (add_note_keeps_note_when_save_fails 0 "a" "b"
    (Organizer "notes.json" []) (World ∅ ∅ {[ "notes.json" ]} []) H))).
Defined.

(** X13: when the notes file can be opened for writing, [add_note] leaves it
    holding the dump of the whole new collection; the new note is the last
    one, has the given title and content and one of the five categories; all
    earlier notes stay in place; the only effects are the write and the
    success message. *)
Theorem add_note_appends_and_saves
    (r : nat) (t c : string) (o : NoteOrganizer) (w : world) :
  file_path o ∉ unwritable w →
  let o' := (add_note r t c o w).1 in
  let w' := (add_note r t c o w).2 in
  in_sync (o', w') ∧
  (∃ cat, cat ∈ five_categories ∧
     notes o' = notes o ++ [CategorizedNote (new_id (notes o)) t c cat]) ∧
  length (notes o') = S (length (notes o)) ∧
  trace w' = trace w ++ [OpenWrite (file_path o);
                         Print (AddedSuccessfully t (_categorize_note r t c))].
Proof.
  intros Hw o' w'. subst o' w'. split_and!.
  - unfold in_sync. rewrite world_add_note. simpl.
    rewrite save_files_ok by done. by rewrite lookup_insert_eq.
  - exists (_categorize_note r t c). split; [apply categorize_in_five | done].
  - rewrite notes_add_note, length_app. simpl. lia.
  - rewrite world_add_note. simpl. rewrite save_trace_ok by done.
    by rewrite <- app_assoc.
Qed.

Lemma add_note_appends_and_saves_witness :
  let o := Organizer "notes.json" [Note 4 "x" "y"] in
  let w := World ∅ ∅ ∅ [] in
  (file_path o ∉ unwritable w) ∧ in_sync (add_note 1 "a" "b" o w).
Proof.
  assert ("notes.json" ∉ (∅ : gset string)) as H by apply not_elem_of_empty.
  split; [exact H|].
  exact (proj1 (add_note_appends_and_saves 1 "a" "b"
    (Organizer "notes.json" [Note 4 "x" "y"]) (World ∅ ∅ ∅ []) H)).
Defined.

(** X14: deleting an ID that some note bears removes every note with that
    ID and no other, keeps the order of the rest, shrinks the collection,
    saves it (the file then holds the dump of the rest when it can be
    written) and ends with the success message. *)
Theorem delete_note_removes_id (i : Z) (o : NoteOrganizer) (w : world) :
  i ∈ get_id <$> notes o →
  let o' := (delete_note i o w).1 in
  let w' := (delete_note i o w).2 in
  selects (λ n, get_id n ≠ i) (notes o) (notes o') ∧
  (i ∉ get_id <$> notes o') ∧
  (length (notes o') < length (notes o))%nat ∧
  last (trace w') = Some (Print (DeletedSuccessfully i)) ∧
  OpenWrite (file_path o) ∈ drop (length (trace w)) (trace w') ∧
  (file_path o ∉ unwritable w → in_sync (o', w')).
Proof.
  intros Hin o' w'. subst o' w'.
  rewrite notes_delete_note, world_delete_note_found by done.
  split_and!.
  - apply filter_selects_dec.
  - apply ids_after_delete.
  - by apply filter_shrinks.
  - simpl. by rewrite last_snoc.
  - simpl. destruct (decide (file_path o ∈ unwritable w)).
    + rewrite save_trace_failed by done.
      rewrite <- app_assoc, drop_app_length. by left.
    + rewrite save_trace_ok by done.
      rewrite <- app_assoc, drop_app_length. by left.
  - intros Hw. unfold in_sync. simpl. rewrite file_path_delete_note.
    rewrite notes_delete_note, save_files_ok by done.
    by rewrite lookup_insert_eq.
Qed.

Lemma delete_note_removes_id_witness :
  let o := Organizer "notes.json"
             [Note 1 "a" "b"; Note 2 "c" "d"; Note 3 "e" "f"] in
  let w := World ∅ ∅ ∅ [] in
  (2 ∈ get_id <$> notes o) ∧
  notes (delete_note 2 o w).1 = [Note 1 "a" "b"; Note 3 "e" "f"] ∧
  (2 ∉ get_id <$> notes (delete_note 2 o w).1).
Proof.
  assert (2 ∈ get_id <$> [Note 1 "a" "b"; Note 2 "c" "d"; Note 3 "e" "f"]) as H
    by (right; left).
  split_and!; [exact H | reflexivity |].
  exact (proj1 (proj2 (delete_note_removes_id 2
    (Organizer "notes.json" [Note 1 "a" "b"; Note 2 "c" "d"; Note 3 "e" "f"])
    (World ∅ ∅ ∅ []) H))).
Defined.

(** X15: a second [delete_note] of the same ID finds nothing: it reports
    not found, keeps the collection of the first, and does not save. *)
Theorem delete_note_twice (i : Z) (o : NoteOrganizer) (w : world) :
  let s1 := delete_note i o w in
  let s2 := delete_note i s1.1 s1.2 in
  s2.1 = s1.1 ∧
  s2.2 = emit (Print (NotFound i)) s1.2 ∧
  files s2.2 = files s1.2.
Proof.
  intros s1 s2. subst s1 s2.
  assert (i ∉ get_id <$> notes (delete_note i o w).1) as Habs.
  { rewrite notes_delete_note. apply ids_after_delete. }
  assert (notes (delete_note i (delete_note i o w).1 (delete_note i o w).2).1 =
          notes (delete_note i o w).1) as Hn.
  { rewrite notes_delete_note. apply filter_all, Forall_forall.
    intros n Hn <-. apply Habs, list_elem_of_fmap. by exists n. }
  split_and!.
  - apply organizer_eq; [apply file_path_delete_note | done].
  - by rewrite world_delete_note_absent.
  - by rewrite world_delete_note_absent.
Qed.

Lemma filter_filter_comm {A} (P Q : A → Prop)
    `{!∀ x, Decision (P x)} `{!∀ x, Decision (Q x)} (l : list A) :
  filter P (filter Q l) = filter Q (filter P l).
Proof.
  induction l as [|x l IH]; [done|].
  rewrite !(filter_cons _ x).
  destruct (decide (P x)), (decide (Q x));
    rewrite ?filter_cons_True, ?filter_cons_False by done; by rewrite IH.
Qed.

(** X16: the collection left by two deletions does not depend on their
    order. *)
Theorem delete_note_commutes (i j : Z) (o : NoteOrganizer) (w w' : world) :
  let a := delete_note i o w in
  let b := delete_note j o w' in
  (delete_note j a.1 a.2).1 = (delete_note i b.1 b.2).1.
Proof.
  intros a b. subst a b. apply organizer_eq.
  - by rewrite !file_path_delete_note.
  - rewrite !notes_delete_note. apply filter_filter_comm.
Qed.

(** X17: deleting the note that [add_note] has just created gives back the
    collection as it was before, provided the new ID was not already borne
    by a note (as in every collection with strictly increasing IDs). *)
Theorem add_then_delete_restores
    (r : nat) (t c : string) (o : NoteOrganizer) (w : world) :
  new_id (notes o) ∉ get_id <$> notes o →
  let s1 := add_note r t c o w in
  (delete_note (new_id (notes o)) s1.1 s1.2).1 = o.
Proof.
  intros Hfresh s1. subst s1.
  assert (notes (delete_note (new_id (notes o)) (add_note r t c o w).1
                   (add_note r t c o w).2).1 = notes o) as Hn.
  { rewrite notes_delete_note, notes_add_note, filter_app.
    rewrite filter_cons_False by (by intros H). rewrite filter_nil, app_nil_r.
    apply filter_all, Forall_forall. intros n Hn Heq.
    apply Hfresh. rewrite <- Heq. apply list_elem_of_fmap. by exists n. }
  apply organizer_eq; [|done].
  by rewrite file_path_delete_note, file_path_add_note.
Qed.

Lemma add_then_delete_restores_witness :
  let o := Organizer "notes.json" [Note 1 "a" "b"; Note 2 "c" "d"] in
  let w := World ∅ ∅ ∅ [] in
  (new_id (notes o) ∉ get_id <$> notes o) ∧
  (delete_note 3 (add_note 0 "e" "f" o w).1 (add_note 0 "e" "f" o w).2).1 = o.
Proof.
  assert (new_id [Note 1 "a" "b"; Note 2 "c" "d"] ∉
          get_id <$> [Note 1 "a" "b"; Note 2 "c" "d"]) as H.
  { simpl. unfold new_id. simpl.
    intros [[=]|[[=]|[]%elem_of_nil]%elem_of_cons]%elem_of_cons. }
  split; [exact H|].
  exact (add_then_delete_restores 0 "e" "f"
    (Organizer "notes.json" [Note 1 "a" "b"; Note 2 "c" "d"]) (World ∅ ∅ ∅ []) H).
Defined.

End Mutations.

(** ** Runs of the organizer *)

Section Runs.
Import Text TextFacts.

Lemma exec_file_path c s : file_path (exec c s).1 = file_path s.1.
Proof.
  destruct c; cbn [exec];
    [apply file_path_add_note | apply file_path_delete_note].
Qed.

Lemma world_delete_note_cases i o w :
  (delete_note i o w).2 = emit (Print (NotFound i)) w ∨
  (delete_note i o w).2 =
    emit (Print (DeletedSuccessfully i))
      (_save_notes (file_path o) (filter (λ n, get_id n ≠ i) (notes o)) w).
Proof.
  destruct (decide (i ∈ get_id <$> notes o)).
  - right. by apply world_delete_note_found.
  - left. by apply world_delete_note_absent.
Qed.

Lemma save_trace_prefix path ns w :
  trace w `prefix_of` trace (_save_notes path ns w).
Proof.
  destruct (decide (path ∈ unwritable w)).
  - rewrite save_trace_failed by done. by eexists.
  - rewrite save_trace_ok by done. by eexists.
Qed.

Lemma exec_frame c s :
  unwritable (exec c s).2 = unwritable s.2 ∧
  unreadable (exec c s).2 = unreadable s.2 ∧
  (∀ path', path' ≠ file_path s.1 →
     files (exec c s).2 !! path' = files s.2 !! path') ∧
  trace s.2 `prefix_of` trace (exec c s).2.
Proof.
  destruct c as [r t b|i]; cbn [exec].
  - rewrite world_add_note. simpl.
    rewrite save_unwritable, save_unreadable. split_and!; [done..| |].
    + intros path' Hne. by apply save_files_other.
    + etrans; [apply save_trace_prefix|]. by eexists.
  - destruct (world_delete_note_cases i s.1 s.2) as [-> | ->]; simpl.
    + split_and!; [done..|]. by eexists.
    + rewrite save_unwritable, save_unreadable. split_and!; [done..| |].
      * intros path' Hne. by apply save_files_other.
      * etrans; [apply save_trace_prefix|]. by eexists.
Qed.

Lemma run_frame (ops : list op) (s : NoteOrganizer * world) :
  file_path (run ops s).1 = file_path s.1 ∧
  unwritable (run ops s).2 = unwritable s.2 ∧
  unreadable (run ops s).2 = unreadable s.2 ∧
  (∀ path', path' ≠ file_path s.1 →
     files (run ops s).2 !! path' = files s.2 !! path') ∧
  trace s.2 `prefix_of` trace (run ops s).2.
Proof.
  revert s. induction ops as [|c ops IH]; intros s; simpl.
  - by split_and!.
  - destruct (IH (exec c s)) as (Hp & Hw & Hr & Hf & Ht).
    destruct (exec_frame c s) as (Hw' & Hr' & Hf' & Ht').
    rewrite exec_file_path in Hp, Hf.
    split_and!; try congruence.
    + intros path' Hne. rewrite Hf by done. by apply Hf'.
    + by etrans.
Qed.

(** X18: whatever sequence of additions and deletions runs, the organizer
    keeps its path, leaves every other file untouched, changes no
    permission, and only adds to the effects recorded so far. *)
Theorem run_touches_only_its_file (ops : list op) (s : NoteOrganizer * world) :
  file_path (run ops s).1 = file_path s.1 ∧
  unwritable (run ops s).2 = unwritable s.2 ∧
  unreadable (run ops s).2 = unreadable s.2 ∧
  (∀ path', path' ≠ file_path s.1 →
     files (run ops s).2 !! path' = files s.2 !! path') ∧
  trace s.2 `prefix_of` trace (run ops s).2.
Proof. apply run_frame. Qed.

Lemma run_invariant (I : list note → Prop) :
  (∀ ns r t c,
     I ns → I (ns ++ [CategorizedNote (new_id ns) t c (_categorize_note r t c)])) →
  (∀ ns i, I ns → I (filter (λ n, get_id n ≠ i) ns)) →
  ∀ ops s, I (notes s.1) → I (notes (run ops s).1).
Proof.
  intros Hadd Hdel ops. induction ops as [|c ops IH]; intros s Hs; [done|].
  simpl. apply IH. destruct c as [r t b|i]; cbn [exec].
  - rewrite notes_add_note. by apply Hadd.
  - rewrite notes_delete_note. by apply Hdel.
Qed.

Lemma exec_in_sync c s :
  file_path s.1 ∉ unwritable s.2 → in_sync s → in_sync (exec c s).
Proof.
  intros Hw Hs. unfold in_sync in *. destruct c as [r t b|i]; cbn [exec].
  - rewrite world_add_note. simpl. rewrite save_files_ok by done.
    by rewrite lookup_insert_eq.
  - rewrite file_path_delete_note, notes_delete_note.
    destruct (decide (i ∈ get_id <$> notes s.1)) as [Hin|Hout].
    + rewrite world_delete_note_found by done. simpl.
      rewrite save_files_ok by done. by rewrite lookup_insert_eq.
    + rewrite world_delete_note_absent by done. simpl. rewrite Hs.
      do 3 f_equal. symmetry. apply filter_all, Forall_forall.
      intros n Hn <-. apply Hout, list_elem_of_fmap. by exists n.
Qed.

Lemma run_in_sync ops s :
  file_path s.1 ∉ unwritable s.2 → in_sync s → in_sync (run ops s).
Proof.
  revert s. induction ops as [|c ops IH]; intros s Hw Hs; [done|].
  simpl. apply IH; [|by apply exec_in_sync].
  rewrite exec_file_path. by rewrite (proj1 (exec_frame c s)).
Qed.

Lemma Forall_filter_keep {A} (Q P : A → Prop) `{!∀ x, Decision (P x)} (l : list A) :
  Forall Q l → Forall Q (filter P l).
Proof.
  rewrite !Forall_forall. intros Hall x Hx. apply Hall.
  by apply list_elem_of_filter in Hx as [_ Hx].
Qed.

Lemma untag_fmap_id (ns : list note) :
  Forall (λ n, untag n = n) ns → untag <$> ns = ns.
Proof. induction 1 as [|n ns Hn _ IH]; [done|]. by rewrite fmap_cons, Hn, IH. Qed.

Lemma run_untagged ops path w :
  Forall (λ n, untag n = n) (notes (run ops (empty_organizer path, w)).1).
Proof.
  apply (run_invariant (Forall (λ n, untag n = n))).
  - intros ns r t c H. apply Forall_app. split; [done|]. by repeat constructor.
  - intros ns i H. by apply Forall_filter_keep.
  - constructor.
Qed.

(** X19: after any run that begins with an addition, on a path that can be
    written and read, the notes file holds the dump of the collection, and a
    new organizer constructed on that path loads exactly the collection the
    run ended with. *)
Theorem restart_reloads_collection
    (r : nat) (t c : string) (ops : list op) (path : string) (w : world) :
  path ∉ unwritable w → path ∉ unreadable w →
  let s := run (Add r t c :: ops) (empty_organizer path, w) in
  in_sync s ∧ (init path s.2).1 = Some s.1.
Proof.
  intros Hw Hr s.
  destruct (run_frame (Add r t c :: ops) (empty_organizer path, w))
    as (Hp & Hw' & Hr' & _). fold s in Hp, Hw', Hr'. simpl in Hp, Hw', Hr'.
  assert (in_sync s) as Hs.
  { subst s. simpl. apply run_in_sync.
    - rewrite file_path_add_note, world_add_note. simpl.
      by rewrite save_unwritable.
    - unfold in_sync. rewrite world_add_note. simpl.
      rewrite save_files_ok by done. by rewrite lookup_insert_eq. }
  split; [done|].
  unfold in_sync in Hs. rewrite Hp in Hs.
  unfold init, _load_notes. rewrite Hs. cbv zeta. simpl.
  rewrite decide_False by (by rewrite Hr'). simpl.
  rewrite mapM_item_to_note. simpl. f_equal.
  apply organizer_eq; simpl; [done|].
  apply untag_fmap_id, run_untagged.
Qed.

Lemma restart_reloads_collection_witness :
  let w := World ∅ ∅ ∅ [] in
  let s := run [Add 0 "a" "b"; Add 1 "exam" "c"; Delete 1]
             (empty_organizer "notes.json", w) in
  ("notes.json" ∉ unwritable w) ∧ ("notes.json" ∉ unreadable w) ∧
  (init "notes.json" s.2).1 = Some s.1.
Proof.
  assert ("notes.json" ∉ (∅ : gset string)) as H by apply not_elem_of_empty.
  split_and!; [exact H | exact H |].
  exact (proj2 (restart_reloads_collection 0 "a" "b"
    [Add 1 "exam" "c"; Delete 1] "notes.json" (World ∅ ∅ ∅ []) H H)).
Defined.

(** X20: every note of a collection reached from the empty one by additions
    and deletions is a categorized note without tags, bears an ID of at
    least one and one of the five categories. *)
Theorem reachable_notes_are_categorized
    (ops : list op) (path : string) (w : world) :
  Forall (λ n, ∃ i t c cat,
            n = CategorizedNote i t c cat ∧ 1 ≤ i ∧ cat ∈ five_categories)
    (notes (run ops (empty_organizer path, w)).1).
Proof.
  apply (run_invariant
           (Forall (λ n, ∃ i t c cat,
                      n = CategorizedNote i t c cat ∧ 1 ≤ i ∧
                      cat ∈ five_categories))).
  - intros ns r t c H. apply Forall_app. split; [done|].
    apply Forall_singleton. eexists _, _, _, _. split; [done|].
    split; [|apply categorize_in_five].
    unfold new_id. destruct (last ns) as [n|] eqn:E; [|done].
    apply last_Some_elem_of in E. rewrite Forall_forall in H.
    destruct (H n E) as (i & ? & ? & ? & -> & Hi & _). simpl. lia.
  - intros ns i H. by apply Forall_filter_keep.
  - constructor.
Qed.

End Runs.

(** ** Further properties of listing and searching *)

Section QueriesMore.
Import Text TextFacts.



Lemma elem_of_search_notes (q : string) (o : NoteOrganizer) (n : note) :
  n ∈ search_notes q o ↔ n ∈ notes o ∧ matches_query q n.
Proof.
  unfold search_notes. cbv zeta.
  rewrite list_elem_of_filter, Is_true_true, search_test_spec. tauto.
Qed.






Lemma elem_of_view_notes (c : string) (o : NoteOrganizer) (n : note) :
  c ≠ EmptyString →
  n ∈ view_notes (Some c) o ↔ n ∈ notes o ∧ in_category c n.
Proof.
  intros Hc. destruct c as [|a c]; [done|]. unfold view_notes. cbn [truthy].
  rewrite list_elem_of_filter, Is_true_true, view_test_spec. tauto.
Qed.

(** X23: the category filter ignores its own letter case: two non-empty
    filters that agree after lower-casing list the same notes. *)
Theorem view_notes_filter_ignores_case (c c' : string) (o : NoteOrganizer) :
  c ≠ EmptyString → c' ≠ EmptyString → lower c = lower c' →
  view_notes (Some c) o = view_notes (Some c') o.
Proof.
  intros Hc Hc' Heq. destruct c as [|a c], c' as [|a' c']; try done.
  unfold view_notes. cbn [truthy]. by rewrite Heq.
Qed.

Lemma view_notes_filter_ignores_case_witness :
  let o := Organizer "notes.json" [CategorizedNote 1 "a" "b" "Idea"] in
  "IDEA" ≠ EmptyString ∧ "idea" ≠ EmptyString ∧ lower "IDEA" = lower "idea" ∧
  view_notes (Some "IDEA") o = view_notes (Some "idea") o.
Proof.
  assert ("IDEA" ≠ EmptyString) as H1 by done.
  assert ("idea" ≠ EmptyString) as H2 by done.
  assert (lower "IDEA" = lower "idea") as H3 by reflexivity.
  split_and!; [exact H1 | exact H2 | exact H3 |].
  exact (view_notes_filter_ignores_case "IDEA" "idea"
    (Organizer "notes.json" [CategorizedNote 1 "a" "b" "Idea"]) H1 H2 H3).
Defined.

(** X24: the note [add_note] creates is listed at once: in the unfiltered
    view, under the category it was given (in any letter case), and by a
    search for its title or for its content. *)
Theorem add_note_is_listed
    (r : nat) (t c : string) (o : NoteOrganizer) (w : world) :
  let o' := (add_note r t c o w).1 in
  let n := CategorizedNote (new_id (notes o)) t c (_categorize_note r t c) in
  n ∈ view_notes None o' ∧
  (∀ f, lower f = lower (_categorize_note r t c) → n ∈ view_notes (Some f) o') ∧
  n ∈ search_notes t o' ∧
  n ∈ search_notes c o'.
Proof.
  intros o' n.
  assert (n ∈ notes o') as Hn.
  { subst o' n. rewrite notes_add_note. set_solver. }
  split_and!.
  - done.
  - intros f Hf. apply elem_of_view_notes.
    + intros ->. pose proof (categorize_in_five r t c) as H5.
      unfold five_categories in H5.
      repeat (apply elem_of_cons in H5 as [H5|H5];
              [rewrite H5 in Hf; discriminate|]).
      by apply elem_of_nil in H5.
    + split; [done|]. by exists (_categorize_note r t c).
  - apply elem_of_search_notes. split; [done|]. left.
    exists EmptyString, EmptyString. by rewrite sapp_nil_r.
  - apply elem_of_search_notes. split; [done|]. right.
    exists EmptyString, EmptyString. by rewrite sapp_nil_r.
Qed.

End QueriesMore.

(** ** Tags and the file *)

Section TagsAndFile.

Lemma untag_fmap_fixed (ns : list note) :
  untag <$> ns = ns → Forall (λ n, untag n = n) ns.
Proof.
  induction ns as [|n ns IH]; [constructor|].
  rewrite fmap_cons. intros [= Hn Hns]. constructor; auto.
Qed.

(** X25: tags do not survive the file: [to_dict] writes them under [tags],
    but a collection that holds a tagged note is never what [_load_notes]
    reads back after [_save_notes]; the note returns as a categorized note
    without tags. *)
Theorem tags_lost_on_reload
    (path : string) (ns : list note) (w : world)
    (i : Z) (t c cat : string) (tags : list string) (k : nat) :
  path ∉ unwritable w → path ∉ unreadable w →
  ns !! k = Some (TaggedCategorizedNote i t c cat tags) →
  to_dict (TaggedCategorizedNote i t c cat tags) !! "tags" = Some (JList tags) ∧
  (_load_notes path (_save_notes path ns w)).1 ≠ Some ns ∧
  ∃ ns', (_load_notes path (_save_notes path ns w)).1 = Some ns' ∧
         ns' !! k = Some (CategorizedNote i t c cat).
Proof.
  intros Hw Hr Hk.
  assert ((_load_notes path (_save_notes path ns w)).1 = Some (untag <$> ns))
    as Hload.
  { unfold _load_notes. rewrite save_files_ok, lookup_insert_eq by done.
    cbv zeta. simpl. rewrite save_unreadable.
    rewrite decide_False by done. simpl. apply mapM_item_to_note. }
  split_and!.
  - apply (to_dict_tags (TaggedCategorizedNote i t c cat tags)).
  - rewrite Hload. intros [= Heq]. apply untag_fmap_fixed in Heq.
    rewrite Forall_lookup in Heq. by specialize (Heq k _ Hk).
  - exists (untag <$> ns). split; [done|]. by rewrite list_lookup_fmap, Hk.
Qed.

Lemma tags_lost_on_reload_witness :
  let ns := [TaggedCategorizedNote 1 "a" "b" "Idea" ["x"; "y"]] in
  let w := World ∅ ∅ ∅ [] in
  (_load_notes "notes.json" (_save_notes "notes.json" ns w)).1 ≠ Some ns.
Proof.
  assert ("notes.json" ∉ (∅ : gset string)) as H by apply not_elem_of_empty.
  exact (proj1 (proj2 (tags_lost_on_reload "notes.json"
    [TaggedCategorizedNote 1 "a" "b" "Idea" ["x"; "y"]] (World ∅ ∅ ∅ [])
    1 "a" "b" "Idea" ["x"; "y"] 0 H H eq_refl))).
Defined.

End TagsAndFile.
